(** * Replicated state engine of gokv (cluster/delegate.go)

    Shallow embedding of the [Delegate] of the gokv cluster package:
    the FSM of per-node partitions (internalpb.FSM / NodeState / Entry),
    the local operations Put, Get, Exists, Delete, the anti-entropy
    merge MergeRemoteState, the expiry predicate and the NodeMeta
    callback. *)

From Stdlib Require Import ZArith List Permutation Ascii String Strings.Byte.
From stdpp Require Import base gmap strings list fin_maps.

(** ** Protobuf well-known types *)

(** timestamppb.Timestamp: seconds and nanos. *)
Record Timestamp := mkTimestamp { ts_seconds : Z; ts_nanos : Z }.

(** durationpb.Duration: seconds and nanos. *)
Record Duration := mkDuration { dur_seconds : Z; dur_nanos : Z }.

(** [x.GetLastUpdatedTime().AsTime().Unix()]: a nil timestamp reads as
    the zero seconds/nanos; [time.Unix(sec, nsec)] normalises [nsec]
    into [0, 1e9) by floor division and [Unix()] returns the seconds. *)
Definition AsTime_Unix (t : option Timestamp) : Z :=
  match t with
  | None => 0%Z
  | Some t => (ts_seconds t + ts_nanos t / 1000000000)%Z
  end.

(** [durationpb.New(d)] for a duration [d] in nanoseconds (Go's [/] and
    [%] truncate). *)
Definition durationpb_New (d : Z) : Duration :=
  mkDuration (Z.quot d 1000000000) (Z.rem d 1000000000).

(** ** Data model (internal/internalpb/gokv.pb.go) *)

Record Entry := mkEntry {
  Key : string;
  Value : list byte;
  Archived : option bool;           (* *bool, oneof *)
  LastUpdatedTime : option Timestamp;
  Expiry : option Duration
}.

Definition GetArchived (e : Entry) : bool :=
  match Archived e with Some b => b | None => false end.

(** A nil Go map and an empty one read alike: both are the empty gmap. *)
Record NodeState := mkNodeState {
  NodeId : string;
  Entries : gmap string Entry
}.

(** [FSM.NodeStates], in slice order. *)
Definition FSM := list NodeState.

Record NodeMeta := mkNodeMeta {
  Name : string;
  Host : string;
  Port : Z;                          (* uint32 *)
  DiscoveryPort : Z;                 (* uint32 *)
  CreationTime : option Timestamp
}.

Inductive KvError := ErrKeyNotFound.

(** ** expired and setExpiry *)

(** [expired(entry)] with [now] the value of [time.Now().UTC().Unix()]. *)
Definition expired (now : Z) (entry : Entry) : bool :=
  match Expiry entry with
  | None => false
  | Some _ =>
      let expiration := AsTime_Unix (LastUpdatedTime entry) in
      if (expiration <=? 0)%Z then false
      else (now >? expiration)%Z
  end.

(** [setExpiry(expiration)], [expiration] a duration in nanoseconds. *)
Definition setExpiry (expiration : Z) : option Duration :=
  if (0 <? expiration)%Z then Some (durationpb_New expiration) else None.

(** ** Get, Exists, List *)

(** The inner [for k, entry := range nodeState.GetEntries() { if k == key
    ...}] visits at most one matching key, so it is the map lookup. *)
Fixpoint Get (now : Z) (key : string) (nodeStates : FSM) : Entry + KvError :=
  match nodeStates with
  | [] => inr ErrKeyNotFound
  | nodeState :: rest =>
      match Entries nodeState !! key with
      | Some entry =>
          if expired now entry then inr ErrKeyNotFound else inl entry
      | None => Get now key rest
      end
  end.

Fixpoint Exists (now : Z) (key : string) (nodeStates : FSM) : bool :=
  match nodeStates with
  | [] => false
  | nodeState :: rest =>
      match Entries nodeState !! key with
      | Some entry =>
          if expired now entry then false else negb (GetArchived entry)
      | None => Exists now key rest
      end
  end.

(** [List()]: every entry of every partition that is not expired, the
    partitions in slice order; inside a partition Go ranges over the map
    in an arbitrary order, here that of [map_to_list]. *)
Definition Delegate_List (now : Z) (nodeStates : FSM) : list Entry :=
  concat (map (fun nodeState =>
                 List.filter (fun entry => negb (expired now entry))
                   (map snd (map_to_list (Entries nodeState))))
              nodeStates).

(** ** Delete *)

Definition archive (now : Timestamp) (e : Entry) : Entry :=
  {| Key := Key e; Value := Value e; Archived := Some true;
     LastUpdatedTime := Some now; Expiry := Expiry e |}.

(** The first partition that holds [key] and belongs to [me] gets its
    entry archived and re-stamped; then the loop returns. *)
Fixpoint Delete (me key : string) (now : Timestamp) (nodeStates : FSM) : FSM :=
  match nodeStates with
  | [] => []
  | nodeState :: rest =>
      match Entries nodeState !! key with
      | Some e =>
          if bool_decide (NodeId nodeState = me) then
            {| NodeId := NodeId nodeState;
               Entries := <[key := archive now e]> (Entries nodeState) |} :: rest
          else nodeState :: Delete me key now rest
      | None => nodeState :: Delete me key now rest
      end
  end.

(** ** Put *)

Definition put_entry (key : string) (value : list byte) (timestamp : Timestamp)
    (expiry : option Duration) : Entry :=
  {| Key := key; Value := value; Archived := None;
     LastUpdatedTime := Some timestamp; Expiry := expiry |}.

(** First loop of Put: every partition holding [key] gets the new entry
    (the [break] leaves only the inner key loop); the flag is
    [keyExists]. *)
Fixpoint put_overwrite (key : string) (e : Entry) (nodeStates : FSM) : FSM * bool :=
  match nodeStates with
  | [] => ([], false)
  | nodeState :: rest =>
      let '(rest', found) := put_overwrite key e rest in
      match Entries nodeState !! key with
      | Some _ =>
          ({| NodeId := NodeId nodeState;
              Entries := <[key := e]> (Entries nodeState) |} :: rest', true)
      | None => (nodeState :: rest', found)
      end
  end.

(** Second loop of Put: insert into the first partition owned by [me]
    (a nil or empty map is replaced by a one-entry map). *)
Fixpoint put_insert_local (me key : string) (e : Entry) (nodeStates : FSM) : FSM :=
  match nodeStates with
  | [] => []
  | nodeState :: rest =>
      if bool_decide (NodeId nodeState = me) then
        {| NodeId := NodeId nodeState;
           Entries := <[key := e]> (Entries nodeState) |} :: rest
      else nodeState :: put_insert_local me key e rest
  end.

(** [Put(key, value, expiration)] at instant [now] on node [me]. *)
Definition Put (me key : string) (value : list byte) (expiration : Z)
    (now : Timestamp) (nodeStates : FSM) : FSM :=
  let e := put_entry key value now (setExpiry expiration) in
  let '(nodeStates', keyExists) := put_overwrite key e nodeStates in
  if keyExists then nodeStates' else put_insert_local me key e nodeStates'.

(** ** MergeRemoteState *)

Definition entry_unix (e : Entry) : Z := AsTime_Unix (LastUpdatedTime e).

(** Body of the loop over [remoteNodeState.GetEntries()]. *)
Definition merge_entry_step (key : string) (remoteEntry : Entry)
    (localEntries : gmap string Entry) : gmap string Entry :=
  match localEntries !! key with
  | None => <[key := remoteEntry]> localEntries
  | Some localEntry =>
      if (entry_unix localEntry >? entry_unix remoteEntry)%Z then localEntries
      else <[key := remoteEntry]> localEntries
  end.

(** The loop itself; Go's map order is arbitrary, and the steps for
    distinct keys commute. *)
Definition merge_entries (localEntries remoteEntries : gmap string Entry)
    : gmap string Entry :=
  map_fold merge_entry_step localEntries remoteEntries.

(** [entries[nodeState.GetNodeId()] = nodeState.GetEntries()] over the
    local node states: a later duplicate id overwrites an earlier one. *)
Definition index_local (localFSM : FSM) : gmap string (gmap string Entry) :=
  foldl (fun entries nodeState => <[NodeId nodeState := Entries nodeState]> entries)
    ∅ localFSM.

(** Body of the loop over [remoteFSM.GetNodeStates()]. *)
Definition merge_node_state (entries : gmap string (gmap string Entry))
    (remoteNodeState : NodeState) : gmap string (gmap string Entry) :=
  match entries !! NodeId remoteNodeState with
  | None => <[NodeId remoteNodeState := Entries remoteNodeState]> entries
  | Some localEntries =>
      <[NodeId remoteNodeState :=
          merge_entries localEntries (Entries remoteNodeState)]> entries
  end.

Definition merged_index (localFSM remoteFSM : FSM) : gmap string (gmap string Entry) :=
  foldl merge_node_state (index_local localFSM) remoteFSM.

(** The node states rebuilt from the map, in one iteration order. *)
Definition rebuild (entries : gmap string (gmap string Entry)) : FSM :=
  map (fun kv => {| NodeId := kv.1; Entries := kv.2 |}) (map_to_list entries).

(** [d.fsm.NodeStates] after [MergeRemoteState(buf, join)], where
    [remoteFSM] is what [proto.Unmarshal] left in [new(internalpb.FSM)]
    (the zero FSM [[]] when decoding fails at once): the node states are
    those of the map, in whatever order Go's map iteration yields. *)
Definition MergeRemoteState (localFSM remoteFSM result : FSM) : Prop :=
  Permutation result (rebuild (merged_index localFSM remoteFSM)).

(** One iteration order that Go may pick. *)
Definition MergeRemoteState_fn (localFSM remoteFSM : FSM) : FSM :=
  rebuild (merged_index localFSM remoteFSM).

(** ** proto.Marshal of NodeMeta *)

Definition byte_of_N (n : N) : byte :=
  match Byte.of_N n with Some b => b | None => x00 end.

Fixpoint varint_fuel (fuel : nat) (v : N) : list byte :=
  match fuel with
  | O => []
  | S fuel' =>
      if (v <? 128)%N then [byte_of_N v]
      else byte_of_N (N.lor (v mod 128) 128) :: varint_fuel fuel' (v / 128)
  end.

(** Varint of a 64-bit two's complement value (int64, int32, uint32). *)
Definition varint (v : Z) : list byte :=
  varint_fuel 10 (Z.to_N (v mod 2 ^ 64)).

Definition string_bytes (s : string) : list byte :=
  map Ascii.byte_of_ascii (list_ascii_of_string s).

(** A length-delimited field [tag] (proto3 omits empty strings). *)
Definition field_bytes (tag : Z) (payload : list byte) : list byte :=
  varint tag ++ varint (Z.of_nat (length payload)) ++ payload.

(** [utf8.ValidString]: each rune is ASCII or a shortest-form multi-byte
    sequence, no surrogates, at most U+10FFFF. *)
Definition byte_in (lo hi : N) (b : byte) : bool :=
  (lo <=? Byte.to_N b)%N && (Byte.to_N b <=? hi)%N.

Definition cont (b : byte) : bool := byte_in 128 191 b.

Fixpoint utf8_valid (bs : list byte) : bool :=
  match bs with
  | [] => true
  | b0 :: rest =>
      if (Byte.to_N b0 <? 128)%N then utf8_valid rest
      else if byte_in 194 223 b0 then
        match rest with
        | b1 :: r => cont b1 && utf8_valid r
        | _ => false
        end
      else if byte_in 224 239 b0 then
        let lo := if (Byte.to_N b0 =? 224)%N then 160%N else 128%N in
        let hi := if (Byte.to_N b0 =? 237)%N then 159%N else 191%N in
        match rest with
        | b1 :: b2 :: r => byte_in lo hi b1 && cont b2 && utf8_valid r
        | _ => false
        end
      else if byte_in 240 244 b0 then
        let lo := if (Byte.to_N b0 =? 240)%N then 144%N else 128%N in
        let hi := if (Byte.to_N b0 =? 244)%N then 143%N else 191%N in
        match rest with
        | b1 :: b2 :: b3 :: r => byte_in lo hi b1 && cont b2 && cont b3 && utf8_valid r
        | _ => false
        end
      else false
  end.

(** protobuf-go's proto3 string encoder (appendStringNoZeroValidateUTF8):
    an empty string is skipped; otherwise the field is appended first and
    the string is then checked, [false] reporting errInvalidUTF8. *)
Definition field_string (tag : Z) (s : string) : list byte * bool :=
  if bool_decide (s = ""%string) then ([], true)
  else (field_bytes tag (string_bytes s), utf8_valid (string_bytes s)).

Definition field_varint (tag : Z) (v : Z) : list byte :=
  if (v =? 0)%Z then [] else varint tag ++ varint v.

Definition marshal_Timestamp (t : Timestamp) : list byte :=
  field_varint 8 (ts_seconds t) ++ field_varint 16 (ts_nanos t).

Inductive MarshalError := errInvalidUTF8.

(** [proto.Marshal] of a NodeMeta: fields in number order (name 1, host 2,
    port 3, discovery_port 4, creation_time 5); the first encoder error
    stops the loop and [Marshal] returns the bytes written so far together
    with the error. *)
Definition proto_Marshal_NodeMeta (m : NodeMeta) : list byte * option MarshalError :=
  let (b1, ok1) := field_string 10 (Name m) in
  if negb ok1 then (b1, Some errInvalidUTF8) else
  let (b2, ok2) := field_string 18 (Host m) in
  if negb ok2 then (b1 ++ b2, Some errInvalidUTF8) else
  (b1 ++ b2 ++ field_varint 24 (Port m) ++ field_varint 32 (DiscoveryPort m) ++
   match CreationTime m with
   | None => []
   | Some t => field_bytes 42 (marshal_Timestamp t)
   end, None).

(** ** The Delegate *)

Record Delegate := mkDelegate {
  nodeMeta : NodeMeta;
  fsm : FSM;
  me : string
}.

(** [NodeMeta(limit)]: the marshal error is dropped and [limit] unused. *)
Definition Delegate_NodeMeta (d : Delegate) (limit : Z) : list byte :=
  fst (proto_Marshal_NodeMeta (nodeMeta d)).

Definition newDelegate (name : string) (meta : NodeMeta) : Delegate :=
  {| nodeMeta := meta; me := name;
     fsm := [{| NodeId := name; Entries := ∅ |}] |}.

Definition with_fsm (d : Delegate) (f : FSM) : Delegate :=
  {| nodeMeta := nodeMeta d; fsm := f; me := me d |}.

(** The mutating operations, each under the write lock. *)
Inductive step : Delegate -> Delegate -> Prop :=
| step_put d key value expiration now :
    step d (with_fsm d (Put (me d) key value expiration now (fsm d)))
| step_delete d key now :
    step d (with_fsm d (Delete (me d) key now (fsm d)))
| step_merge d remoteFSM result :
    MergeRemoteState (fsm d) remoteFSM result ->
    step d (with_fsm d result).

Inductive reachable : Delegate -> Prop :=
| reachable_init name meta : reachable (newDelegate name meta)
| reachable_step d d' : reachable d -> step d d' -> reachable d'.

(** ** Reading the FSM *)

(** The partition of node [n]: the first node state with that id. *)
Definition partition_of (nodeStates : FSM) (n : string) : option (gmap string Entry) :=
  Entries <$> find (fun ns => bool_decide (NodeId ns = n)) nodeStates.

(** The entry for key [k] in the partition of node [n]. *)
Definition fsm_lookup (nodeStates : FSM) (n k : string) : option Entry :=
  partition_of nodeStates n ≫= (.!! k).

(** ([n], [k], [e]) is one of the triples held by the FSM. *)
Definition holds_triple (nodeStates : FSM) (n k : string) (e : Entry) : Prop :=
  exists ns, In ns nodeStates /\ NodeId ns = n /\ Entries ns !! k = Some e.

(** The first entry for [key] in partition iteration order. *)
Definition first_entry (nodeStates : FSM) (key : string) : option Entry :=
  head (omap (fun ns => Entries ns !! key) nodeStates).

(** Pointwise last-writer-wins, as the spec words it: the local entry
    when it is strictly newer by whole-second unix time, else the remote
    one when present, else the local one. *)
Definition spec_lww (local remote : option Entry) : option Entry :=
  match local, remote with
  | Some l, Some r =>
      if (entry_unix l >? entry_unix r)%Z then Some l else Some r
  | _, Some r => Some r
  | l, None => l
  end.

(** isVisible(e) of the spec. *)
Definition isVisible (now : Z) (e : Entry) : bool :=
  negb (GetArchived e) && negb (expired now e).

(** The full instant of a last-updated timestamp, in nanoseconds. *)
Definition ts_instant (t : option Timestamp) : Z :=
  match t with
  | None => 0%Z
  | Some t => (ts_seconds t * 1000000000 + ts_nanos t)%Z
  end.

(** Does the node state hold an entry for [key]? *)
Definition holds_key (key : string) (ns : NodeState) : bool :=
  match Entries ns !! key with Some _ => true | None => false end.

(** A sequence of merges, one remote FSM after the other. *)
Inductive merge_seq : FSM -> list FSM -> FSM -> Prop :=
| merge_seq_nil s : merge_seq s [] s
| merge_seq_cons s r rs s1 s2 :
    MergeRemoteState s r s1 -> merge_seq s1 rs s2 -> merge_seq s (r :: rs) s2.

(** ** Concrete runs *)

Definition ts (s : Z) : Timestamp := mkTimestamp s 0.

Definition ent (k : string) (t : Timestamp) : Entry :=
  mkEntry k [] None (Some t) None.

Definition run_local : FSM := [mkNodeState "a" (<["k" := ent "k" (ts 5)]> ∅)].

Definition run_remote : FSM :=
  [mkNodeState "a" (<["k" := ent "k" (ts 3)]> (<["j" := ent "j" (ts 1)]> ∅));
   mkNodeState "b" (<["x" := ent "x" (ts 2)]> ∅)].

Example merge_run_keeps_newer :
  fsm_lookup (MergeRemoteState_fn run_local run_remote) "a" "k" = Some (ent "k" (ts 5)).
Proof. vm_compute. reflexivity. Qed.

Example merge_run_adopts :
  fsm_lookup (MergeRemoteState_fn run_local run_remote) "b" "x" = Some (ent "x" (ts 2)).
Proof. vm_compute. reflexivity. Qed.

Example put_then_get :
  Get 10 "k" (Put "a" "k" [] 0 (ts 7) (fsm (newDelegate "a" (mkNodeMeta "" "" 0 0 None))))
  = inl (ent "k" (ts 7)).
Proof. vm_compute. reflexivity. Qed.

(** ** Lemmas on the merge of one partition *)

Lemma merge_entries_lookup (L R : gmap string Entry) (k : string) :
  merge_entries L R !! k = spec_lww (L !! k) (R !! k).
Proof.
  revert k. unfold merge_entries.
  apply (map_fold_weak_ind
           (fun r m => forall k, r !! k = spec_lww (L !! k) (m !! k))).
  - intros k. rewrite lookup_empty. by destruct (L !! k).
  - intros i x m r Hi IH k.
    assert (Hr : r !! i = L !! i) by (rewrite IH, Hi; by destruct (L !! i)).
    unfold merge_entry_step. rewrite Hr.
    destruct (decide (i = k)) as [<-|Hne].
    + rewrite lookup_insert_eq.
      destruct (L !! i) as [l|] eqn:HL; simpl.
      * destruct (entry_unix l >? entry_unix x)%Z; [congruence|].
        by rewrite lookup_insert_eq.
      * by rewrite lookup_insert_eq.
    + rewrite (lookup_insert_ne m i k x) by done.
      destruct (L !! i) as [l|];
        [destruct (entry_unix l >? entry_unix x)%Z|];
        rewrite ?lookup_insert_ne by done; apply IH.
Qed.

Lemma spec_lww_mono (e : Entry) (r : option Entry) :
  exists e', spec_lww (Some e) r = Some e' /\ (entry_unix e <= entry_unix e')%Z.
Proof.
  destruct r as [r|]; simpl.
  - destruct (entry_unix e >? entry_unix r)%Z eqn:Hc.
    + exists e. split; [reflexivity|lia].
    + exists r. split; [reflexivity|]. rewrite Z.gtb_ltb, Z.ltb_ge in Hc. lia.
  - eexists; split; [reflexivity|lia].
Qed.

Lemma merge_entries_mono (L R : gmap string Entry) (k : string) (e : Entry) :
  L !! k = Some e ->
  exists e', merge_entries L R !! k = Some e' /\ (entry_unix e <= entry_unix e')%Z.
Proof. intros HL. rewrite merge_entries_lookup, HL. apply spec_lww_mono. Qed.

(** ** Lemmas on partitions and node ids *)

Lemma map_fmap_list {A B} (f : A -> B) (l : list A) : f <$> l = map f l.
Proof. induction l as [|a l IH]; simpl; [done|]. by rewrite <- IH. Qed.

Lemma partition_of_cons (ns : NodeState) (rest : FSM) (n : string) :
  partition_of (ns :: rest) n =
  if bool_decide (NodeId ns = n) then Some (Entries ns) else partition_of rest n.
Proof. unfold partition_of; simpl. by case_bool_decide. Qed.

Lemma fsm_lookup_cons (ns : NodeState) (rest : FSM) (n k : string) :
  fsm_lookup (ns :: rest) n k =
  if bool_decide (NodeId ns = n) then Entries ns !! k else fsm_lookup rest n k.
Proof. unfold fsm_lookup. rewrite partition_of_cons. by case_bool_decide. Qed.

Lemma partition_of_None (l : FSM) (n : string) :
  partition_of l n = None <-> (forall ns, In ns l -> NodeId ns <> n).
Proof.
  induction l as [|ns rest IH]; simpl; [split; [tauto|done]|].
  rewrite partition_of_cons. case_bool_decide as Hid.
  - split; [done|]. intros H. exfalso. by apply (H ns); [left|].
  - rewrite IH. split.
    + intros H ns' [<-|Hin]; [done|]. by apply H.
    + intros H ns' Hin. apply H. by right.
Qed.

Lemma not_in_ids (l : FSM) (n : string) :
  ~ In n (map NodeId l) -> partition_of l n = None.
Proof.
  intros Hn. apply partition_of_None. intros ns Hin Hid.
  apply Hn. rewrite <- Hid. by apply in_map.
Qed.

Lemma NoDup_ids_cons (ns : NodeState) (rest : FSM) :
  NoDup (map NodeId (ns :: rest)) ->
  ~ In (NodeId ns) (map NodeId rest) /\ NoDup (map NodeId rest).
Proof.
  simpl. rewrite NoDup_cons. intros [Hn Hnd]. split; [|done].
  by rewrite <- list_elem_of_In.
Qed.

Lemma partition_of_Some (l : FSM) (n : string) (E : gmap string Entry) :
  NoDup (map NodeId l) ->
  partition_of l n = Some E <->
  exists ns, In ns l /\ NodeId ns = n /\ Entries ns = E.
Proof.
  induction l as [|ns rest IH]; simpl; intros Hnd.
  - split; [done|]. by intros (? & [] & _).
  - apply NoDup_ids_cons in Hnd as [Hn Hnd].
    rewrite partition_of_cons. case_bool_decide as Hid.
    + split.
      * intros [= <-]. exists ns. auto.
      * intros (ns' & [<-|Hin] & Hid' & HE); [by subst|].
        exfalso. apply Hn. rewrite Hid, <- Hid'. by apply in_map.
    + rewrite IH by done. split.
      * intros (ns' & Hin & ?). exists ns'. auto.
      * intros (ns' & [<-|Hin] & Hid' & HE); [done|]. exists ns'. auto.
Qed.

Lemma option_eq_Some {A} (o1 o2 : option A) :
  (forall x, o1 = Some x <-> o2 = Some x) -> o1 = o2.
Proof.
  intros H. destruct o1 as [x|], o2 as [y|]; try done.
  - by apply H.
  - by destruct (proj1 (H x) eq_refl).
  - by destruct (proj2 (H y) eq_refl).
Qed.

Lemma rebuild_ids (M : gmap string (gmap string Entry)) :
  map NodeId (rebuild M) = (map_to_list M).*1.
Proof.
  unfold rebuild. rewrite map_map. generalize (map_to_list M) as l.
  induction l as [|[k v] l IH]; simpl; [done|]. simpl in IH. by f_equal.
Qed.

Lemma rebuild_NoDup (M : gmap string (gmap string Entry)) :
  NoDup (map NodeId (rebuild M)).
Proof. rewrite rebuild_ids. apply NoDup_fst_map_to_list. Qed.

Lemma merge_NoDup (l r res : FSM) :
  MergeRemoteState l r res -> NoDup (map NodeId res).
Proof.
  unfold MergeRemoteState. intros Hp.
  apply (Permutation_map NodeId) in Hp. rewrite Hp. apply rebuild_NoDup.
Qed.

Lemma rebuild_partition (M : gmap string (gmap string Entry)) (n : string) :
  partition_of (rebuild M) n = M !! n.
Proof.
  apply option_eq_Some. intros E.
  rewrite partition_of_Some by apply rebuild_NoDup.
  rewrite <- elem_of_map_to_list, list_elem_of_In. unfold rebuild. split.
  - intros (ns & Hin & Hid & HE). apply in_map_iff in Hin as ([k v] & <- & Hin).
    simpl in *. by subst.
  - intros Hin. exists {| NodeId := n; Entries := E |}. split; [|done].
    apply in_map_iff. by exists (n, E).
Qed.

Lemma merge_partition (l r res : FSM) (n : string) :
  MergeRemoteState l r res -> partition_of res n = merged_index l r !! n.
Proof.
  intros Hp. rewrite <- rebuild_partition.
  apply option_eq_Some. intros E.
  rewrite !partition_of_Some; [| apply rebuild_NoDup | by eapply merge_NoDup].
  unfold MergeRemoteState in Hp. split; intros (ns & Hin & ?); exists ns; split; auto.
  - by rewrite <- Hp.
  - by rewrite Hp.
Qed.

(** ** Lemmas on the two loops of MergeRemoteState *)

Lemma index_from_lookup (m0 : gmap string (gmap string Entry)) (l : FSM) (n : string) :
  NoDup (map NodeId l) ->
  foldl (fun entries ns => <[NodeId ns := Entries ns]> entries) m0 l !! n =
  match partition_of l n with Some E => Some E | None => m0 !! n end.
Proof.
  revert m0. induction l as [|ns rest IH]; intros m0 Hnd; simpl; [done|].
  apply NoDup_ids_cons in Hnd as [Hn Hnd].
  rewrite IH, partition_of_cons by done. case_bool_decide as Hid.
  - subst n. rewrite not_in_ids by done. apply lookup_insert_eq.
  - destruct (partition_of rest n); [done|]. by apply lookup_insert_ne.
Qed.

Lemma index_local_lookup (l : FSM) (n : string) :
  NoDup (map NodeId l) -> index_local l !! n = partition_of l n.
Proof.
  intros Hnd. unfold index_local. rewrite index_from_lookup by done.
  by destruct (partition_of l n).
Qed.

Lemma merge_node_state_eq (M : gmap string (gmap string Entry)) (ns : NodeState) :
  merge_node_state M ns !! NodeId ns =
  Some match M !! NodeId ns with
       | None => Entries ns
       | Some L => merge_entries L (Entries ns)
       end.
Proof. unfold merge_node_state. destruct (M !! NodeId ns); apply lookup_insert_eq. Qed.

Lemma merge_node_state_ne (M : gmap string (gmap string Entry)) (ns : NodeState) (n : string) :
  NodeId ns <> n -> merge_node_state M ns !! n = M !! n.
Proof.
  intros Hne. unfold merge_node_state.
  destruct (M !! NodeId ns); by apply lookup_insert_ne.
Qed.

Lemma merge_fold_lookup (M : gmap string (gmap string Entry)) (r : FSM) (n : string) :
  NoDup (map NodeId r) ->
  foldl merge_node_state M r !! n =
  match partition_of r n with
  | None => M !! n
  | Some R => Some match M !! n with None => R | Some L => merge_entries L R end
  end.
Proof.
  revert M. induction r as [|ns rest IH]; intros M Hnd; simpl; [done|].
  apply NoDup_ids_cons in Hnd as [Hn Hnd].
  rewrite IH, partition_of_cons by done. case_bool_decide as Hid.
  - subst n. rewrite not_in_ids by done. apply merge_node_state_eq.
  - by rewrite merge_node_state_ne.
Qed.

(** A merge never removes an entry of the map and never lowers its
    whole-second timestamp, whatever the remote node states are. *)
Lemma merge_node_state_mono (M : gmap string (gmap string Entry)) (ns : NodeState)
    (n k : string) (e : Entry) :
  M !! n ≫= (.!! k) = Some e ->
  exists e', merge_node_state M ns !! n ≫= (.!! k) = Some e' /\
             (entry_unix e <= entry_unix e')%Z.
Proof.
  intros He. destruct (decide (NodeId ns = n)) as [<-|Hne].
  - rewrite merge_node_state_eq. simpl.
    destruct (M !! NodeId ns) as [L|]; simpl in He; [|done].
    by apply merge_entries_mono.
  - rewrite merge_node_state_ne by done. exists e. split; [done|lia].
Qed.

Lemma merge_fold_mono (M : gmap string (gmap string Entry)) (r : FSM)
    (n k : string) (e : Entry) :
  M !! n ≫= (.!! k) = Some e ->
  exists e', foldl merge_node_state M r !! n ≫= (.!! k) = Some e' /\
             (entry_unix e <= entry_unix e')%Z.
Proof.
  revert M e. induction r as [|ns rest IH]; intros M e He; simpl.
  - exists e. split; [done|lia].
  - destruct (merge_node_state_mono M ns n k e He) as (e1 & He1 & Hle1).
    destruct (IH _ _ He1) as (e2 & He2 & Hle2).
    exists e2. split; [done|lia].
Qed.

Lemma merge_lookup_mono (l r res : FSM) (n k : string) (e : Entry) :
  NoDup (map NodeId l) -> MergeRemoteState l r res ->
  fsm_lookup l n k = Some e ->
  exists e', fsm_lookup res n k = Some e' /\ (entry_unix e <= entry_unix e')%Z.
Proof.
  intros Hnd Hm He. unfold fsm_lookup in *.
  rewrite (merge_partition l r res n Hm). unfold merged_index.
  apply merge_fold_mono. by rewrite index_local_lookup.
Qed.

Lemma merge_seq_mono (s : FSM) (rs : list FSM) (s' : FSM) (n k : string) (e : Entry) :
  NoDup (map NodeId s) -> merge_seq s rs s' ->
  fsm_lookup s n k = Some e ->
  exists e', fsm_lookup s' n k = Some e' /\ (entry_unix e <= entry_unix e')%Z.
Proof.
  intros Hnd Hseq. revert Hnd e. induction Hseq as [s|s r rs s1 s2 Hm Hseq IH];
    intros Hnd e He.
  - exists e. split; [done|lia].
  - destruct (merge_lookup_mono s r s1 n k e Hnd Hm He) as (e1 & He1 & Hle1).
    destruct (IH (merge_NoDup _ _ _ Hm) e1 He1) as (e2 & He2 & Hle2).
    exists e2. split; [done|lia].
Qed.

(** ** Lemmas on Delete *)

Ltac bd_simpl :=
  repeat match goal with
  | H : context [bool_decide ?P] |- _ =>
      first [rewrite (bool_decide_true P) in H by done
            | rewrite (bool_decide_false P) in H by done]
  | |- context [bool_decide ?P] =>
      first [rewrite (bool_decide_true P) by done
            | rewrite (bool_decide_false P) by done]
  end.

Lemma Delete_ids (me key : string) (now : Timestamp) (l : FSM) :
  map NodeId (Delete me key now l) = map NodeId l.
Proof.
  induction l as [|ns rest IH]; simpl; [done|].
  destruct (Entries ns !! key); [case_bool_decide|]; simpl; by rewrite ?IH.
Qed.

Lemma Delete_absent (me key : string) (now : Timestamp) (l : FSM) :
  ~ In me (map NodeId l) -> Delete me key now l = l.
Proof.
  induction l as [|ns rest IH]; simpl; intros Hn; [done|].
  destruct (Entries ns !! key); [case_bool_decide; [tauto|]|];
    rewrite IH; tauto.
Qed.

Lemma Delete_hit (me key : string) (now : Timestamp) (l : FSM) (e : Entry) :
  fsm_lookup l me key = Some e ->
  fsm_lookup (Delete me key now l) me key = Some (archive now e).
Proof.
  induction l as [|ns rest IH]; simpl; [done|].
  rewrite fsm_lookup_cons. intros He.
  destruct (decide (NodeId ns = me)) as [Hid|Hid];
    destruct (Entries ns !! key) as [e0|] eqn:Hk; bd_simpl;
    rewrite ?fsm_lookup_cons; simpl; bd_simpl; try congruence; auto.
  rewrite lookup_insert_eq. congruence.
Qed.

Lemma Delete_other (me key : string) (now : Timestamp) (l : FSM) (n k : string) :
  n <> me \/ k <> key ->
  fsm_lookup (Delete me key now l) n k = fsm_lookup l n k.
Proof.
  intros Hnk. induction l as [|ns rest IH]; simpl; [done|].
  destruct (Entries ns !! key) as [e0|] eqn:Hk; [case_bool_decide as Hid|];
    rewrite !fsm_lookup_cons; simpl.
  - case_bool_decide as Hn; [|done].
    rewrite lookup_insert_ne; [done|]. intros ->. subst. tauto.
  - by rewrite IH.
  - by rewrite IH.
Qed.

Lemma Delete_miss (me key : string) (now : Timestamp) (l : FSM) :
  NoDup (map NodeId l) -> fsm_lookup l me key = None ->
  Delete me key now l = l.
Proof.
  induction l as [|ns rest IH]; simpl; intros Hnd He; [done|].
  apply NoDup_ids_cons in Hnd as [Hn Hnd].
  rewrite fsm_lookup_cons in He.
  destruct (decide (NodeId ns = me)) as [Hid|Hid];
    destruct (Entries ns !! key) as [e0|] eqn:Hk; bd_simpl; try congruence.
  - subst me. by rewrite Delete_absent.
  - by rewrite IH.
  - by rewrite IH.
Qed.

(** ** Lemmas on Put *)

Lemma put_overwrite_spec (key : string) (e : Entry) (l : FSM) :
  put_overwrite key e l =
  (map (fun ns => match Entries ns !! key with
                  | Some _ => {| NodeId := NodeId ns; Entries := <[key := e]> (Entries ns) |}
                  | None => ns
                  end) l,
   existsb (holds_key key) l).
Proof.
  induction l as [|ns rest IH]; simpl; [done|]. rewrite IH.
  unfold holds_key at 2. by destruct (Entries ns !! key).
Qed.

Lemma put_overwrite_ids (key : string) (e : Entry) (l : FSM) :
  map NodeId (put_overwrite key e l).1 = map NodeId l.
Proof.
  rewrite put_overwrite_spec. simpl. rewrite map_map.
  apply map_ext. intros ns. by destruct (Entries ns !! key).
Qed.

Lemma put_insert_local_ids (me key : string) (e : Entry) (l : FSM) :
  map NodeId (put_insert_local me key e l) = map NodeId l.
Proof.
  induction l as [|ns rest IH]; simpl; [done|].
  case_bool_decide; simpl; by rewrite ?IH.
Qed.

Lemma Put_ids (me key : string) (value : list byte) (expiration : Z)
    (now : Timestamp) (l : FSM) :
  map NodeId (Put me key value expiration now l) = map NodeId l.
Proof.
  unfold Put.
  pose proof (put_overwrite_ids key (put_entry key value now (setExpiry expiration)) l) as H.
  destruct (put_overwrite _ _ l) as [l' []]; simpl in H; [done|].
  by rewrite put_insert_local_ids.
Qed.

Lemma existsb_filter_length (p : NodeState -> bool) (l : FSM) :
  existsb p l = false -> length (List.filter p l) = 0%nat.
Proof.
  induction l as [|ns rest IH]; simpl; [done|].
  destruct (p ns); simpl; [done|]. exact IH.
Qed.

(** ** Lemmas on reachable states and triples *)

Lemma reachable_NoDup (d : Delegate) :
  reachable d -> NoDup (map NodeId (fsm d)).
Proof.
  induction 1 as [name meta|d d' _ IH Hstep].
  - simpl. apply NoDup_singleton.
  - destruct Hstep as [d key value expiration now|d key now|d remoteFSM result Hm];
      simpl.
    + by rewrite Put_ids.
    + by rewrite Delete_ids.
    + by eapply merge_NoDup.
Qed.

Lemma holds_triple_lookup (l : FSM) (n k : string) (e : Entry) :
  NoDup (map NodeId l) ->
  holds_triple l n k e <-> fsm_lookup l n k = Some e.
Proof.
  intros Hnd. unfold holds_triple, fsm_lookup. split.
  - intros (ns & Hin & Hid & Hk).
    assert (Hp : partition_of l n = Some (Entries ns))
      by (apply partition_of_Some; eauto).
    by rewrite Hp.
  - destruct (partition_of l n) as [E|] eqn:Hp; simpl; [|done].
    intros Hk. apply partition_of_Some in Hp as (ns & Hin & Hid & <-); [|done].
    eauto.
Qed.

(** ** Concrete inputs for the witnesses and counterexamples *)

Definition meta1 : NodeMeta := mkNodeMeta "node1" "" 0 0 None.

Definition sub_local : FSM :=
  [mkNodeState "a" (<["k" := ent "k" (mkTimestamp 5 900000000)]> ∅)].

Definition sub_remote : FSM :=
  [mkNodeState "a" (<["k" := ent "k" (mkTimestamp 5 100000000)]> ∅)].

Definition split_fsm : FSM :=
  [mkNodeState "a" (<["k" := ent "k" (ts 1)]> ∅);
   mkNodeState "b" (<["k" := ent "k" (ts 2)]> (<["j" := ent "j" (ts 2)]> ∅))].

(** A one-byte name that is not UTF-8 (0xFF). *)
Definition bad_name : string := String (Ascii.ascii_of_byte xff) EmptyString.

Definition bad_meta : NodeMeta := mkNodeMeta bad_name "" 7946 7947 None.

Definition bad_host_meta : NodeMeta := mkNodeMeta "node1" bad_name 7946 7947 None.

Definition fresh1 : FSM := fsm (newDelegate "node1" meta1).

Definition fresh2 : FSM := fsm (newDelegate "node2" meta1).

(** ** C1: pointwise last-writer-wins *)

(** C1. For a local and a remote FSM with unique node ids, every node
    state list MergeRemoteState may produce holds, at each node id [n]
    and key [k], the last-writer-wins choice between the local and the
    remote entry: the local one when its whole-second unix time is
    strictly greater, otherwise the remote one when present, otherwise
    the local one. *)
Theorem MergeRemoteState_lww (local remote result : FSM) :
  NoDup (map NodeId local) -> NoDup (map NodeId remote) ->
  MergeRemoteState local remote result ->
  forall n k, fsm_lookup result n k =
              spec_lww (fsm_lookup local n k) (fsm_lookup remote n k).
Proof.
  intros Hl Hr Hm n k. unfold fsm_lookup.
  rewrite (merge_partition local remote result n Hm). unfold merged_index.
  rewrite merge_fold_lookup, index_local_lookup by done.
  destruct (partition_of remote n) as [R|], (partition_of local n) as [L|]; simpl.
  - apply merge_entries_lookup.
  - by destruct (R !! k).
  - by destruct (L !! k).
  - done.
Qed.

Lemma MergeRemoteState_lww_witness :
  fsm_lookup (MergeRemoteState_fn run_local run_remote) "a" "k" =
  spec_lww (fsm_lookup run_local "a" "k") (fsm_lookup run_remote "a" "k").
Proof.
  apply (MergeRemoteState_lww run_local run_remote).
  - apply (bool_decide_unpack _). vm_compute. exact I.
  - apply (bool_decide_unpack _). vm_compute. exact I.
  - unfold MergeRemoteState, MergeRemoteState_fn. reflexivity.
Defined.

(** ** C2: monotonicity of merges *)

(** C2 (as stated, counterexample). Merging can lower the full
    last-updated timestamp of a retained entry: a remote entry written in
    the same second, but earlier within it, replaces the local one. *)
Lemma MergeRemoteState_timestamp_can_decrease :
  ~ (forall local remote result, MergeRemoteState local remote result ->
     forall n k e e', fsm_lookup local n k = Some e ->
       fsm_lookup result n k = Some e' ->
       (ts_instant (LastUpdatedTime e) <= ts_instant (LastUpdatedTime e'))%Z).
Proof.
  intros H.
  assert (Hle := H sub_local sub_remote (MergeRemoteState_fn sub_local sub_remote)
            (Permutation_refl _) "a" "k"
            (ent "k" (mkTimestamp 5 900000000)) (ent "k" (mkTimestamp 5 100000000))).
  vm_compute in Hle. apply Hle; reflexivity.
Qed.

(** C2 (amended). From a local FSM with unique node ids (every reachable
    one), along any sequence of merges an entry present for (n, k) stays
    present, and its whole-second unix timestamp never decreases. *)
Theorem merge_seq_unix_monotone (s : FSM) (rs : list FSM) (s' : FSM)
    (n k : string) (e : Entry) :
  NoDup (map NodeId s) -> merge_seq s rs s' ->
  fsm_lookup s n k = Some e ->
  exists e', fsm_lookup s' n k = Some e' /\ (entry_unix e <= entry_unix e')%Z.
Proof. apply merge_seq_mono. Qed.

Lemma merge_seq_unix_monotone_witness :
  exists e', fsm_lookup (MergeRemoteState_fn sub_local sub_remote) "a" "k" = Some e' /\
    (entry_unix (ent "k" (mkTimestamp 5 900000000)) <= entry_unix e')%Z.
Proof.
  apply (merge_seq_unix_monotone sub_local [sub_remote]).
  - apply (bool_decide_unpack _). vm_compute. exact I.
  - econstructor; [apply Permutation_refl|constructor].
  - vm_compute. reflexivity.
Defined.

(** ** C3: the expiry predicate *)

(** C3 (as stated, counterexample). An entry with an expiry but no
    last-updated timestamp (unix time 0) is never expired, though the
    current second is past 0. *)
Lemma expired_not_plain_deadline :
  ~ (forall now e, expired now e = true <->
       (is_Some (Expiry e) /\ (now > AsTime_Unix (LastUpdatedTime e))%Z)).
Proof.
  intros H.
  assert (Hx : expired 1 (mkEntry "k" [] None None (Some (mkDuration 1 0))) = true).
  { apply H. split; [eexists; reflexivity | vm_compute; reflexivity]. }
  vm_compute in Hx. discriminate.
Qed.

(** C3 (amended). [expired now e] holds exactly when [e.expiry] is
    present, the unix second of [e.last_updated_time] is positive, and
    the current unix second is strictly greater than it; the expiry
    duration itself is never added. *)
Theorem expired_iff (now : Z) (e : Entry) :
  expired now e = true <->
  is_Some (Expiry e) /\ (0 < AsTime_Unix (LastUpdatedTime e))%Z /\
  (now > AsTime_Unix (LastUpdatedTime e))%Z.
Proof.
  unfold expired. destruct (Expiry e) as [x|]; simpl.
  - destruct (AsTime_Unix (LastUpdatedTime e) <=? 0)%Z eqn:Hle.
    + apply Z.leb_le in Hle. split; [done|lia].
    + apply Z.leb_gt in Hle. rewrite Z.gtb_ltb, Z.ltb_lt.
      split; [intros; split; [eexists; reflexivity|lia] | lia].
  - split; [done|]. intros [[? ?] _]. done.
Qed.

(** ** C4: Delete touches only the local partition *)

(** C4. On an FSM with unique node ids, [Delete key] on node [me] keeps
    the partitions; if [me]'s partition holds [key], that entry comes out
    with [archived = true] and last-updated time [now], its other fields
    kept; every other (node id, key) is unchanged; and when [me]'s
    partition does not hold [key] the FSM is unchanged, even if peer
    partitions hold it. *)
Theorem Delete_local_partition_only (me key : string) (now : Timestamp) (l : FSM) :
  NoDup (map NodeId l) ->
  map NodeId (Delete me key now l) = map NodeId l /\
  (forall e, fsm_lookup l me key = Some e ->
     exists e', fsm_lookup (Delete me key now l) me key = Some e' /\
       Archived e' = Some true /\ LastUpdatedTime e' = Some now /\
       Key e' = Key e /\ Value e' = Value e /\ Expiry e' = Expiry e) /\
  (forall n k, n <> me \/ k <> key ->
     fsm_lookup (Delete me key now l) n k = fsm_lookup l n k) /\
  (fsm_lookup l me key = None -> Delete me key now l = l).
Proof.
  intros Hnd. split; [apply Delete_ids|]. split; [|split].
  - intros e He. exists (archive now e). split; [by apply Delete_hit|].
    simpl. auto.
  - intros n k Hnk. by apply Delete_other.
  - by apply Delete_miss.
Qed.

Lemma Delete_local_partition_only_witness :
  map NodeId (Delete "a" "k" (ts 9) split_fsm) = map NodeId split_fsm /\
  (forall e, fsm_lookup split_fsm "a" "k" = Some e ->
     exists e', fsm_lookup (Delete "a" "k" (ts 9) split_fsm) "a" "k" = Some e' /\
       Archived e' = Some true /\ LastUpdatedTime e' = Some (ts 9) /\
       Key e' = Key e /\ Value e' = Value e /\ Expiry e' = Expiry e) /\
  (forall n k, n <> "a"%string \/ k <> "k"%string ->
     fsm_lookup (Delete "a" "k" (ts 9) split_fsm) n k = fsm_lookup split_fsm n k) /\
  (fsm_lookup split_fsm "a" "k" = None -> Delete "a" "k" (ts 9) split_fsm = split_fsm).
Proof.
  apply Delete_local_partition_only.
  apply (bool_decide_unpack _). vm_compute. exact I.
Defined.

(** ** C5 and C6: Get and Exists read the first match *)

Lemma Get_first (now : Z) (key : string) (l : FSM) :
  Get now key l =
  match first_entry l key with
  | None => inr ErrKeyNotFound
  | Some e => if expired now e then inr ErrKeyNotFound else inl e
  end.
Proof.
  induction l as [|ns rest IH]; simpl; [done|].
  unfold first_entry. simpl. destruct (Entries ns !! key); simpl; [done|].
  exact IH.
Qed.

(** C5. [Get key] fails with KeyNotFound exactly when no partition holds
    [key] or the first entry for [key] in partition order is expired;
    otherwise it returns that first entry as stored, archived or not. *)
Theorem Get_KeyNotFound_iff (now : Z) (key : string) (l : FSM) :
  (Get now key l = inr ErrKeyNotFound <->
   first_entry l key = None \/
   exists e, first_entry l key = Some e /\ expired now e = true) /\
  (forall e, first_entry l key = Some e -> expired now e = false ->
   Get now key l = inl e).
Proof.
  rewrite Get_first. split.
  - destruct (first_entry l key) as [e|].
    + destruct (expired now e) eqn:Hx; split; try done.
      * intros _. right. by exists e.
      * intros [?|(e' & [= <-] & ?)]; congruence.
    + split; [by left|done].
  - intros e -> ->. reflexivity.
Qed.

(** C6. [Exists key] is [isVisible] (not archived, not expired) of the
    first entry for [key] in partition order, and [false] when no
    partition holds [key]. *)
Theorem Exists_first_visible (now : Z) (key : string) (l : FSM) :
  Exists now key l =
  match first_entry l key with
  | None => false
  | Some e => isVisible now e
  end.
Proof.
  induction l as [|ns rest IH]; simpl; [done|].
  unfold first_entry. simpl. destruct (Entries ns !! key) as [e|]; simpl.
  - unfold isVisible. by destruct (expired now e), (GetArchived e).
  - exact IH.
Qed.

(** ** C7: merging an empty remote FSM *)

(** C7. Merging a remote FSM with no node states (the zero FSM left by a
    failed decode) into a local FSM with unique node ids keeps exactly
    the same (node id, key, entry) triples; only the order of the node
    states may change. *)
Theorem MergeRemoteState_empty_remote (local result : FSM) :
  NoDup (map NodeId local) -> MergeRemoteState local [] result ->
  forall n k e, holds_triple result n k e <-> holds_triple local n k e.
Proof.
  intros Hnd Hm n k e.
  rewrite !holds_triple_lookup by (done || by eapply merge_NoDup).
  unfold fsm_lookup. rewrite (merge_partition local [] result n Hm).
  unfold merged_index. simpl. by rewrite index_local_lookup.
Qed.

Lemma MergeRemoteState_empty_remote_witness :
  holds_triple (MergeRemoteState_fn split_fsm []) "b" "j" (ent "j" (ts 2)) <->
  holds_triple split_fsm "b" "j" (ent "j" (ts 2)).
Proof.
  apply MergeRemoteState_empty_remote.
  - apply (bool_decide_unpack _). vm_compute. exact I.
  - apply Permutation_refl.
Defined.

(** ** C8: unique node ids *)

(** C8. In every state reachable from [newDelegate] by Put, Delete and
    MergeRemoteState, each node id names at most one node state. *)
Theorem reachable_unique_node_ids (d : Delegate) :
  reachable d -> NoDup (map NodeId (fsm d)).
Proof. apply reachable_NoDup. Qed.

Lemma reachable_unique_node_ids_witness :
  NoDup (map NodeId (fsm (with_fsm (newDelegate "node1" meta1)
    (Put (me (newDelegate "node1" meta1)) "k" [] 0 (ts 1)
         (fsm (newDelegate "node1" meta1)))))).
Proof.
  apply reachable_unique_node_ids.
  eapply reachable_step; [apply reachable_init|apply step_put].
Defined.

(** ** C9: NodeMeta ignores its limit *)

(** C9 (code bug, counterexample). NodeMeta(0) of a node named "node1"
    returns 7 bytes, more than the limit: the code never uses [limit]. *)
Lemma NodeMeta_exceeds_limit :
  ~ (forall d limit, (Z.of_nat (length (Delegate_NodeMeta d limit)) <= limit)%Z).
Proof.
  intros H. specialize (H (newDelegate "node1" meta1) 0%Z).
  vm_compute in H. apply H. reflexivity.
Qed.

(** ** C10: Put on a key held by several partitions *)

(** C10. When two or more partitions hold [key], Put overwrites the entry
    in every one of them with the same new entry (value [value],
    timestamp [now], no archived flag, expiry [setExpiry expiration]),
    leaves the other partitions as they are and inserts nothing into the
    local partition. *)
Theorem Put_overwrites_every_holder (me key : string) (value : list byte)
    (expiration : Z) (now : Timestamp) (l : FSM) :
  (2 <= length (List.filter (holds_key key) l))%nat ->
  Put me key value expiration now l =
  map (fun ns => match Entries ns !! key with
                 | Some _ =>
                     {| NodeId := NodeId ns;
                        Entries := <[key := mkEntry key value None (Some now)
                                               (setExpiry expiration)]> (Entries ns) |}
                 | None => ns
                 end) l.
Proof.
  intros Hlen. unfold Put. rewrite put_overwrite_spec.
  destruct (existsb (holds_key key) l) eqn:Hex; [reflexivity|].
  apply existsb_filter_length in Hex. lia.
Qed.

Lemma Put_overwrites_every_holder_witness :
  Put "a" "k" [x76] 0 (ts 3) split_fsm =
  map (fun ns => match Entries ns !! "k"%string with
                 | Some _ =>
                     {| NodeId := NodeId ns;
                        Entries := <["k"%string := mkEntry "k" [x76] None (Some (ts 3))
                                               (setExpiry 0)]> (Entries ns) |}
                 | None => ns
                 end) split_fsm.
Proof.
  apply Put_overwrites_every_holder. vm_compute. lia.
Defined.

(** ** Further lemmas: first matches, Put, and merges *)

Lemma first_entry_cons (ns : NodeState) (rest : FSM) (key : string) :
  first_entry (ns :: rest) key =
  match Entries ns !! key with Some e => Some e | None => first_entry rest key end.
Proof. unfold first_entry. simpl. by destruct (Entries ns !! key). Qed.

Lemma Exists_first (now : Z) (key : string) (l : FSM) :
  Exists now key l =
  match first_entry l key with None => false | Some e => isVisible now e end.
Proof.
  induction l as [|ns rest IH]; simpl; [done|].
  rewrite first_entry_cons. destruct (Entries ns !! key) as [e|]; [|exact IH].
  unfold isVisible. by destruct (expired now e), (GetArchived e).
Qed.

Lemma first_entry_None (l : FSM) (key : string) :
  first_entry l key = None <-> forall ns, In ns l -> Entries ns !! key = None.
Proof.
  induction l as [|ns rest IH]; simpl; [split; [tauto|done]|].
  rewrite first_entry_cons. destruct (Entries ns !! key) as [e|] eqn:Hk.
  - split; [done|]. intros H. by rewrite (H ns (or_introl eq_refl)) in Hk.
  - rewrite IH. split; [intros H ns' [<-|Hin]; auto|intros H ns' Hin; auto].
Qed.

Lemma existsb_holds_key_false (l : FSM) (key : string) :
  existsb (holds_key key) l = false <-> first_entry l key = None.
Proof.
  induction l as [|ns rest IH]; simpl; [done|].
  rewrite first_entry_cons. unfold holds_key at 1.
  destruct (Entries ns !! key); simpl; [done|exact IH].
Qed.

Lemma fsm_lookup_fresh (l : FSM) (n key : string) :
  first_entry l key = None -> fsm_lookup l n key = None.
Proof.
  rewrite first_entry_None. intros H. unfold fsm_lookup, partition_of.
  destruct (find _ l) as [ns|] eqn:Hf; simpl; [|done].
  apply find_some in Hf as [Hin _]. by apply H.
Qed.

(** With unique ids, an entry held by a single partition is the first
    match. *)
Lemma first_entry_unique_holder (l : FSM) (n key : string) (e : Entry) :
  NoDup (map NodeId l) -> fsm_lookup l n key = Some e ->
  (forall n', n' <> n -> fsm_lookup l n' key = None) ->
  first_entry l key = Some e.
Proof.
  intros Hnd He Hother.
  assert (Hhold : forall ns e', In ns l -> Entries ns !! key = Some e' -> NodeId ns = n).
  { intros ns e' Hin Hk. destruct (decide (NodeId ns = n)) as [|Hne]; [done|].
    exfalso. assert (Ht : holds_triple l (NodeId ns) key e') by (exists ns; auto).
    apply holds_triple_lookup in Ht; [|done]. rewrite Hother in Ht; done. }
  clear Hother Hnd. induction l as [|ns rest IH]; [done|].
  rewrite first_entry_cons. rewrite fsm_lookup_cons in He.
  destruct (Entries ns !! key) as [e0|] eqn:Hk.
  - assert (NodeId ns = n) by (eapply Hhold; [left|]; eauto).
    bd_simpl. congruence.
  - case_bool_decide; [congruence|]. apply IH; [done|].
    intros ns' e' Hin. apply Hhold. by right.
Qed.

Lemma put_overwrite_first (key : string) (e : Entry) (l : FSM) :
  existsb (holds_key key) l = true ->
  first_entry (put_overwrite key e l).1 key = Some e.
Proof.
  rewrite put_overwrite_spec. simpl.
  induction l as [|ns rest IH]; simpl; [done|].
  unfold holds_key at 1. rewrite first_entry_cons.
  destruct (Entries ns !! key) eqn:Hk; simpl.
  - intros _. by rewrite lookup_insert_eq.
  - rewrite Hk. exact IH.
Qed.

Lemma put_insert_local_first (me key : string) (e : Entry) (l : FSM) :
  In me (map NodeId l) -> first_entry l key = None ->
  first_entry (put_insert_local me key e l) key = Some e.
Proof.
  induction l as [|ns rest IH]; simpl; [done|].
  rewrite first_entry_cons. intros Hme Hf.
  destruct (Entries ns !! key) eqn:Hk; [done|].
  case_bool_decide as Hid.
  - rewrite first_entry_cons. simpl. by rewrite lookup_insert_eq.
  - rewrite first_entry_cons, Hk. apply IH; [|done]. destruct Hme; [done|done].
Qed.

(** After Put on a node that has its own partition, the first match for
    the key is the new entry. *)
Lemma Put_first (me key : string) (value : list byte) (expiration : Z)
    (now : Timestamp) (l : FSM) :
  In me (map NodeId l) ->
  first_entry (Put me key value expiration now l) key =
  Some (put_entry key value now (setExpiry expiration)).
Proof.
  intros Hme. unfold Put.
  pose proof (put_overwrite_first key (put_entry key value now (setExpiry expiration)) l)
    as Hfirst.
  rewrite put_overwrite_spec in Hfirst |- *. simpl in Hfirst.
  destruct (existsb (holds_key key) l) eqn:Hex; [by apply Hfirst|].
  apply existsb_holds_key_false in Hex.
  assert (Hid : map (fun ns => match Entries ns !! key with
                  | Some _ => {| NodeId := NodeId ns;
                                 Entries := <[key := put_entry key value now
                                                       (setExpiry expiration)]> (Entries ns) |}
                  | None => ns end) l = l).
  { pose proof (proj1 (first_entry_None l key) Hex) as Hall. clear Hfirst Hme Hex.
    induction l as [|ns rest IH]; simpl; [done|].
    rewrite (Hall ns (or_introl eq_refl)). f_equal. apply IH.
    intros ns' Hin. apply Hall. by right. }
  rewrite Hid. by apply put_insert_local_first.
Qed.

Lemma put_overwrite_other (key k : string) (e : Entry) (l : FSM) (n : string) :
  k <> key -> fsm_lookup (put_overwrite key e l).1 n k = fsm_lookup l n k.
Proof.
  intros Hne. rewrite put_overwrite_spec. simpl.
  induction l as [|ns rest IH]; simpl; [done|].
  destruct (Entries ns !! key); rewrite !fsm_lookup_cons; simpl;
    case_bool_decide; rewrite ?lookup_insert_ne; auto.
Qed.

Lemma put_insert_local_lookup (me key : string) (e : Entry) (l : FSM) (n k : string) :
  In me (map NodeId l) ->
  fsm_lookup (put_insert_local me key e l) n k =
  if bool_decide (n = me) && bool_decide (k = key) then Some e
  else fsm_lookup l n k.
Proof.
  induction l as [|ns rest IH]; simpl; [done|]. intros Hme.
  destruct (decide (NodeId ns = me)) as [Hid|Hid]; bd_simpl;
    rewrite !fsm_lookup_cons; simpl.
  - destruct (decide (n = me)) as [->|Hn]; bd_simpl; simpl.
    + destruct (decide (k = key)) as [->|Hk]; bd_simpl;
        [apply lookup_insert_eq|by apply lookup_insert_ne].
    + by rewrite (bool_decide_false (NodeId ns = n)) by congruence.
  - destruct Hme as [Hme|Hme]; [done|].
    destruct (decide (NodeId ns = n)) as [Hn|Hn]; bd_simpl; [|by apply IH].
    subst n. bd_simpl. done.
Qed.

Lemma put_insert_local_other (me key : string) (e : Entry) (l : FSM) (n k : string) :
  k <> key -> fsm_lookup (put_insert_local me key e l) n k = fsm_lookup l n k.
Proof.
  intros Hne. induction l as [|ns rest IH]; simpl; [done|].
  case_bool_decide; rewrite !fsm_lookup_cons; simpl;
    case_bool_decide; rewrite ?lookup_insert_ne; auto.
Qed.

(** A Put of a key no partition holds lands in [me]'s partition only. *)
Lemma Put_fresh_lookup (me key : string) (value : list byte) (expiration : Z)
    (now : Timestamp) (l : FSM) (n : string) :
  In me (map NodeId l) -> first_entry l key = None ->
  fsm_lookup (Put me key value expiration now l) n key =
  if bool_decide (n = me) then Some (put_entry key value now (setExpiry expiration))
  else None.
Proof.
  intros Hme Hf. unfold Put.
  assert (Hex : existsb (holds_key key) l = false) by by apply existsb_holds_key_false.
  pose proof (put_overwrite_ids key (put_entry key value now (setExpiry expiration)) l)
    as Hids.
  assert (Hlk : forall n', fsm_lookup (put_overwrite key
                   (put_entry key value now (setExpiry expiration)) l).1 n' key = None).
  { intros n'. apply fsm_lookup_fresh. rewrite put_overwrite_spec. simpl.
    apply first_entry_None. intros ns Hin. apply in_map_iff in Hin as (ns0 & <- & Hin0).
    pose proof (proj1 (first_entry_None l key) Hf ns0 Hin0) as H0.
    rewrite H0. simpl. exact H0. }
  rewrite put_overwrite_spec in Hids, Hlk |- *. rewrite Hex in *. simpl in *.
  rewrite put_insert_local_lookup by (by rewrite Hids).
  rewrite Hlk. bd_simpl. by destruct (bool_decide (n = me)).
Qed.

(** Pointwise merge, for unique ids on both sides. *)
Lemma merge_lookup_lww (local remote result : FSM) (n k : string) :
  NoDup (map NodeId local) -> NoDup (map NodeId remote) ->
  MergeRemoteState local remote result ->
  fsm_lookup result n k = spec_lww (fsm_lookup local n k) (fsm_lookup remote n k).
Proof.
  intros Hl Hr Hm. unfold fsm_lookup.
  rewrite (merge_partition local remote result n Hm). unfold merged_index.
  rewrite merge_fold_lookup, index_local_lookup by done.
  destruct (partition_of remote n) as [R|], (partition_of local n) as [L|]; simpl.
  - apply merge_entries_lookup.
  - by destruct (R !! k).
  - by destruct (L !! k).
  - done.
Qed.

Lemma in_ids_partition (l : FSM) (n : string) :
  In n (map NodeId l) <-> is_Some (partition_of l n).
Proof.
  induction l as [|ns rest IH]; simpl.
  - unfold partition_of. simpl. split; [done|]. by intros [? ?].
  - rewrite partition_of_cons. case_bool_decide as Hid.
    + split; [by eexists|by left].
    + rewrite <- IH. split; [intros [?|?]; done|by right].
Qed.

Lemma index_from_is_Some (m0 : gmap string (gmap string Entry)) (l : FSM) (n : string) :
  is_Some (foldl (fun entries ns => <[NodeId ns := Entries ns]> entries) m0 l !! n) <->
  is_Some (m0 !! n) \/ In n (map NodeId l).
Proof.
  revert m0. induction l as [|ns rest IH]; intros m0; simpl; [tauto|].
  rewrite IH. destruct (decide (NodeId ns = n)) as [<-|Hne].
  - rewrite lookup_insert_eq. split; [tauto|by left; eexists].
  - rewrite lookup_insert_ne by done. split; [tauto|]. intros [?|[?|?]]; tauto.
Qed.

Lemma merge_fold_is_Some (M : gmap string (gmap string Entry)) (r : FSM) (n : string) :
  is_Some (foldl merge_node_state M r !! n) <->
  is_Some (M !! n) \/ In n (map NodeId r).
Proof.
  revert M. induction r as [|ns rest IH]; intros M; simpl; [tauto|].
  rewrite IH. destruct (decide (NodeId ns = n)) as [<-|Hne].
  - rewrite merge_node_state_eq. split; [tauto|by left; eexists].
  - rewrite merge_node_state_ne by done. split; [tauto|]. intros [?|[?|?]]; tauto.
Qed.

Lemma merge_fold_absent (M : gmap string (gmap string Entry)) (r : FSM) (n : string) :
  ~ In n (map NodeId r) -> foldl merge_node_state M r !! n = M !! n.
Proof.
  revert M. induction r as [|ns rest IH]; intros M Hn; simpl in *; [done|].
  rewrite IH by tauto. apply merge_node_state_ne. tauto.
Qed.

Lemma index_local_absent (l : FSM) (n : string) :
  ~ In n (map NodeId l) -> index_local l !! n = None.
Proof.
  intros Hn. destruct (index_local l !! n) eqn:Hl; [|done]. exfalso.
  assert (Hs : is_Some (index_local l !! n)) by by eexists.
  unfold index_local in Hs. apply index_from_is_Some in Hs as [[? Hs]|]; [|done].
  by rewrite lookup_empty in Hs.
Qed.

Lemma merge_entries_self (L : gmap string Entry) : merge_entries L L = L.
Proof.
  apply map_eq. intros k. rewrite merge_entries_lookup.
  destruct (L !! k) as [e|]; simpl; [|done].
  by rewrite Z.gtb_ltb, Z.ltb_irrefl.
Qed.

Lemma spec_lww_absorb (a b : option Entry) :
  spec_lww b (spec_lww a b) = spec_lww a b.
Proof.
  destruct a as [a|], b as [b|]; simpl; try done.
  - destruct (entry_unix a >? entry_unix b)%Z eqn:Hab; simpl.
    + rewrite Z.gtb_ltb, Z.ltb_lt in Hab.
      destruct (entry_unix b >? entry_unix a)%Z eqn:Hba; [|done].
      rewrite Z.gtb_ltb, Z.ltb_lt in Hba. lia.
    + by rewrite Z.gtb_ltb, Z.ltb_irrefl.
  - by rewrite Z.gtb_ltb, Z.ltb_irrefl.
Qed.

Lemma merge_entries_absorb (L R : gmap string Entry) :
  merge_entries R (merge_entries L R) = merge_entries L R.
Proof.
  apply map_eq. intros k. rewrite !merge_entries_lookup. apply spec_lww_absorb.
Qed.

(** The partition of [n] after a merge, for unique ids on both sides. *)
Lemma merge_partition_spec (local remote result : FSM) (n : string) :
  NoDup (map NodeId local) -> NoDup (map NodeId remote) ->
  MergeRemoteState local remote result ->
  partition_of result n =
  match partition_of remote n with
  | None => partition_of local n
  | Some R => Some match partition_of local n with
                   | None => R
                   | Some L => merge_entries L R
                   end
  end.
Proof.
  intros Hl Hr Hm. rewrite (merge_partition local remote result n Hm).
  unfold merged_index. by rewrite merge_fold_lookup, index_local_lookup.
Qed.

Lemma list_in_iff (now : Z) (l : FSM) (e : Entry) :
  In e (Delegate_List now l) <->
  exists ns k, In ns l /\ Entries ns !! k = Some e /\ expired now e = false.
Proof.
  unfold Delegate_List. rewrite in_concat. split.
  - intros (es & Hes & Hin). apply in_map_iff in Hes as (ns & <- & Hns).
    apply filter_In in Hin as [Hin Hx]. apply in_map_iff in Hin as ([k e'] & <- & Hkv).
    simpl in *. apply list_elem_of_In, elem_of_map_to_list in Hkv.
    exists ns, k. split; [done|]. split; [done|]. by destruct (expired now e').
  - intros (ns & k & Hns & Hk & Hx). eexists. split; [apply in_map_iff; by exists ns|].
    apply filter_In. split; [|by rewrite Hx].
    apply in_map_iff. exists (k, e). split; [done|].
    apply list_elem_of_In, elem_of_map_to_list. done.
Qed.

Lemma expired_later (now now' : Z) (e : Entry) :
  expired now e = true -> (now <= now')%Z -> expired now' e = true.
Proof.
  unfold expired. destruct (Expiry e); [|done].
  destruct (AsTime_Unix (LastUpdatedTime e) <=? 0)%Z; [done|].
  rewrite !Z.gtb_ltb, !Z.ltb_lt. lia.
Qed.

(** ** Further properties of the engine *)

(** Get after Put on the writing node: the new entry is the first match,
    returned unless it is already expired. *)
Theorem Get_after_Put (me key : string) (value : list byte) (expiration : Z)
    (now : Timestamp) (now' : Z) (l : FSM) :
  In me (map NodeId l) ->
  Get now' key (Put me key value expiration now l) =
  let e := put_entry key value now (setExpiry expiration) in
  if expired now' e then inr ErrKeyNotFound else inl e.
Proof. intros Hme. by rewrite Get_first, Put_first. Qed.

Lemma Get_after_Put_witness :
  Get 3 "k" (Put "node1" "k" [x76] 0 (ts 2) fresh1) =
  let e := put_entry "k" [x76] (ts 2) (setExpiry 0) in
  if expired 3 e then inr ErrKeyNotFound else inl e.
Proof. apply Get_after_Put. simpl. by left. Defined.

(** Exists after a Put without expiry on the writing node is true. *)
Theorem Exists_after_Put_no_expiry (me key : string) (value : list byte)
    (expiration : Z) (now : Timestamp) (now' : Z) (l : FSM) :
  In me (map NodeId l) -> (expiration <= 0)%Z ->
  Exists now' key (Put me key value expiration now l) = true.
Proof.
  intros Hme Hx. rewrite Exists_first, Put_first by done.
  unfold setExpiry. destruct (0 <? expiration)%Z eqn:H0.
  - apply Z.ltb_lt in H0. lia.
  - reflexivity.
Qed.

Lemma Exists_after_Put_no_expiry_witness :
  Exists 100 "k" (Put "node1" "k" [] 0 (ts 2) fresh1) = true.
Proof. apply Exists_after_Put_no_expiry; [simpl; by left|lia]. Defined.

(** A Put with a positive expiration is hidden from Get and Exists as
    soon as the clock is past the second it was written in. *)
Theorem Put_with_expiry_hidden_next_second (me key : string) (value : list byte)
    (expiration : Z) (now : Timestamp) (now' : Z) (l : FSM) :
  In me (map NodeId l) -> (0 < expiration)%Z ->
  (0 < AsTime_Unix (Some now))%Z -> (now' > AsTime_Unix (Some now))%Z ->
  Get now' key (Put me key value expiration now l) = inr ErrKeyNotFound /\
  Exists now' key (Put me key value expiration now l) = false.
Proof.
  intros Hme Hx Hpos Hlater.
  assert (He : expired now' (put_entry key value now (setExpiry expiration)) = true).
  { unfold expired, setExpiry. apply Z.ltb_lt in Hx. rewrite Hx. simpl.
    simpl in Hpos, Hlater. destruct (_ <=? 0)%Z eqn:Hle.
    - apply Z.leb_le in Hle. lia.
    - rewrite Z.gtb_ltb, Z.ltb_lt. lia. }
  rewrite Get_first, Exists_first, Put_first by done.
  unfold isVisible. rewrite He. split; [done|]. by rewrite andb_false_r.
Qed.

Lemma Put_with_expiry_hidden_next_second_witness :
  Get 11 "k" (Put "node1" "k" [] 100000000 (ts 10) fresh1) = inr ErrKeyNotFound /\
  Exists 11 "k" (Put "node1" "k" [] 100000000 (ts 10) fresh1) = false.
Proof.
  apply Put_with_expiry_hidden_next_second; [simpl; by left|lia|vm_compute; reflexivity|
    vm_compute; reflexivity].
Defined.

(** Once Get reports KeyNotFound it keeps doing so as time passes, until
    the state changes. *)
Theorem Get_not_found_persists (now now' : Z) (key : string) (l : FSM) :
  Get now key l = inr ErrKeyNotFound -> (now <= now')%Z ->
  Get now' key l = inr ErrKeyNotFound.
Proof.
  rewrite !Get_first. intros H Hle.
  destruct (first_entry l key) as [e|]; [|done].
  destruct (expired now e) eqn:Hx; [|done].
  by rewrite (expired_later now now' e Hx Hle).
Qed.

Lemma Get_not_found_persists_witness :
  Get 7 "zz" split_fsm = inr ErrKeyNotFound.
Proof. apply (Get_not_found_persists 5); [vm_compute; reflexivity|lia]. Defined.

(** Once Exists is false it stays false as time passes, until the state
    changes. *)
Theorem Exists_false_persists (now now' : Z) (key : string) (l : FSM) :
  Exists now key l = false -> (now <= now')%Z -> Exists now' key l = false.
Proof.
  rewrite !Exists_first. intros H Hle.
  destruct (first_entry l key) as [e|]; [|done]. unfold isVisible in *.
  destruct (GetArchived e); simpl in *; [done|].
  apply negb_false_iff in H. by rewrite (expired_later now now' e H Hle).
Qed.

Lemma Exists_false_persists_witness : Exists 7 "zz" split_fsm = false.
Proof. apply (Exists_false_persists 5); [vm_compute; reflexivity|lia]. Defined.

(** Exists is true exactly when Get returns an entry that is not
    archived. *)
Theorem Exists_iff_Get_live (now : Z) (key : string) (l : FSM) :
  Exists now key l = true <->
  exists e, Get now key l = inl e /\ GetArchived e = false.
Proof.
  rewrite Exists_first, Get_first. destruct (first_entry l key) as [e|].
  - unfold isVisible.
    destruct (expired now e), (GetArchived e) eqn:Ha; simpl;
      split; try done; try (intros (? & ? & ?); congruence).
    intros _. exists e. done.
  - split; [done|]. by intros (? & ? & ?).
Qed.

(** Put and Delete never add, remove or reorder partitions. *)
Theorem Put_Delete_keep_partitions (me key : string) (value : list byte)
    (expiration : Z) (now : Timestamp) (l : FSM) :
  map NodeId (Put me key value expiration now l) = map NodeId l /\
  map NodeId (Delete me key now l) = map NodeId l.
Proof. split; [apply Put_ids|apply Delete_ids]. Qed.

(** Put only touches its own key: every other key of every partition is
    unchanged. *)
Theorem Put_frame (me key : string) (value : list byte) (expiration : Z)
    (now : Timestamp) (l : FSM) (n k : string) :
  k <> key ->
  fsm_lookup (Put me key value expiration now l) n k = fsm_lookup l n k.
Proof.
  intros Hne. unfold Put.
  pose proof (put_overwrite_other key k (put_entry key value now (setExpiry expiration))
                l n Hne) as H.
  destruct (put_overwrite _ _ l) as [l' []]; simpl in *; [done|].
  by rewrite put_insert_local_other.
Qed.

Lemma Put_frame_witness :
  fsm_lookup (Put "a" "k" [] 0 (ts 9) split_fsm) "b" "j" = fsm_lookup split_fsm "b" "j".
Proof. by apply Put_frame. Defined.

Lemma merge_ids (local remote result : FSM) (n : string) :
  MergeRemoteState local remote result ->
  In n (map NodeId result) <-> In n (map NodeId local) \/ In n (map NodeId remote).
Proof.
  intros Hm. rewrite in_ids_partition, (merge_partition local remote result n Hm).
  unfold merged_index. rewrite merge_fold_is_Some. unfold index_local.
  rewrite index_from_is_Some, lookup_empty. split.
  - intros [[[? ?]|?]|?]; [done|tauto|tauto].
  - intros [?|?]; tauto.
Qed.

(** After a merge the node ids are those of the local FSM together with
    those of the remote one, nothing else. *)
Theorem Merge_node_ids (local remote result : FSM) (n : string) :
  MergeRemoteState local remote result ->
  In n (map NodeId result) <-> In n (map NodeId local) \/ In n (map NodeId remote).
Proof. apply merge_ids. Qed.

Lemma Merge_node_ids_witness :
  In "b"%string (map NodeId (MergeRemoteState_fn run_local run_remote)) <->
  In "b"%string (map NodeId run_local) \/ In "b"%string (map NodeId run_remote).
Proof. apply (Merge_node_ids run_local run_remote). apply Permutation_refl. Defined.

(** A local partition whose node id the remote FSM does not mention comes
    out of the merge unchanged. *)
Theorem Merge_keeps_unmentioned_partitions (local remote result : FSM) (n : string) :
  NoDup (map NodeId local) -> ~ In n (map NodeId remote) ->
  MergeRemoteState local remote result ->
  partition_of result n = partition_of local n.
Proof.
  intros Hl Hn Hm. rewrite (merge_partition local remote result n Hm).
  unfold merged_index. rewrite merge_fold_absent by done.
  by apply index_local_lookup.
Qed.

Lemma Merge_keeps_unmentioned_partitions_witness :
  partition_of (MergeRemoteState_fn run_remote run_local) "b" = partition_of run_remote "b".
Proof.
  apply (Merge_keeps_unmentioned_partitions run_remote run_local);
    [apply (bool_decide_unpack _); vm_compute; exact I
    |simpl; intros [H|[]]; discriminate H
    |apply Permutation_refl].
Defined.

(** A remote partition whose node id is unknown locally is adopted as it
    is, empty or not. *)
Theorem Merge_adopts_new_partitions (local remote result : FSM) (n : string) :
  NoDup (map NodeId remote) -> ~ In n (map NodeId local) ->
  MergeRemoteState local remote result ->
  partition_of result n = partition_of remote n.
Proof.
  intros Hr Hn Hm. rewrite (merge_partition local remote result n Hm).
  unfold merged_index. rewrite merge_fold_lookup, index_local_absent by done.
  by destruct (partition_of remote n).
Qed.

Lemma Merge_adopts_new_partitions_witness :
  partition_of (MergeRemoteState_fn run_local run_remote) "b" = partition_of run_remote "b".
Proof.
  apply (Merge_adopts_new_partitions run_local run_remote);
    [apply (bool_decide_unpack _); vm_compute; exact I
    |simpl; intros [H|[]]; discriminate H
    |apply Permutation_refl].
Defined.

(** Merging an FSM with unique ids into itself changes no partition. *)
Theorem Merge_self_idempotent (l result : FSM) (n : string) :
  NoDup (map NodeId l) -> MergeRemoteState l l result ->
  partition_of result n = partition_of l n.
Proof.
  intros Hl Hm. rewrite (merge_partition_spec l l result n Hl Hl Hm).
  destruct (partition_of l n) as [L|]; [|done]. by rewrite merge_entries_self.
Qed.

Lemma Merge_self_idempotent_witness :
  partition_of (MergeRemoteState_fn run_remote run_remote) "a" = partition_of run_remote "a".
Proof.
  apply (Merge_self_idempotent run_remote);
    [apply (bool_decide_unpack _); vm_compute; exact I|apply Permutation_refl].
Defined.

(** One push/pull round converges: if A merges B's state and B then
    merges A's new state, both hold the same partitions (up to order). *)
Theorem Merge_round_trip_converges (A B A' B' : FSM) (n : string) :
  NoDup (map NodeId A) -> NoDup (map NodeId B) ->
  MergeRemoteState A B A' -> MergeRemoteState B A' B' ->
  partition_of A' n = partition_of B' n.
Proof.
  intros HA HB HA' HB'.
  assert (HndA' : NoDup (map NodeId A')) by (eapply merge_NoDup; eauto).
  rewrite (merge_partition_spec B A' B' n HB HndA' HB').
  rewrite (merge_partition_spec A B A' n HA HB HA').
  destruct (partition_of B n) as [R|], (partition_of A n) as [L|]; simpl; try done.
  - by rewrite merge_entries_absorb.
  - by rewrite merge_entries_self.
Qed.

Lemma Merge_round_trip_converges_witness :
  partition_of (MergeRemoteState_fn run_local run_remote) "a" =
  partition_of (MergeRemoteState_fn run_remote (MergeRemoteState_fn run_local run_remote)) "a".
Proof.
  apply (Merge_round_trip_converges run_local run_remote);
    [apply (bool_decide_unpack _); vm_compute; exact I
    |apply (bool_decide_unpack _); vm_compute; exact I
    |apply Permutation_refl|apply Permutation_refl].
Defined.

(** A key Put (without expiry) on node B, that neither A nor B held
    before, is readable on A after A merges B's state. *)
Theorem Put_replicates_through_merge (A B A' : FSM) (meB key : string)
    (value : list byte) (expiration : Z) (now : Timestamp) (now' : Z) :
  NoDup (map NodeId A) -> NoDup (map NodeId B) -> In meB (map NodeId B) ->
  first_entry A key = None -> first_entry B key = None -> (expiration <= 0)%Z ->
  MergeRemoteState A (Put meB key value expiration now B) A' ->
  Get now' key A' = inl (put_entry key value now None) /\ Exists now' key A' = true.
Proof.
  intros HA HB Hme HfA HfB Hx Hm.
  assert (Hexp : setExpiry expiration = None).
  { unfold setExpiry. destruct (0 <? expiration)%Z eqn:H0; [|done].
    apply Z.ltb_lt in H0. lia. }
  assert (HB1 : NoDup (map NodeId (Put meB key value expiration now B)))
    by by rewrite Put_ids.
  assert (Hlk : forall n, fsm_lookup A' n key =
            if bool_decide (n = meB) then Some (put_entry key value now None) else None).
  { intros n. rewrite (merge_lookup_lww _ _ _ n key HA HB1 Hm).
    rewrite fsm_lookup_fresh by done. rewrite Put_fresh_lookup by done.
    rewrite Hexp. by case_bool_decide. }
  assert (Hfirst : first_entry A' key = Some (put_entry key value now None)).
  { apply (first_entry_unique_holder A' meB); [by eapply merge_NoDup| |].
    - rewrite Hlk. by bd_simpl.
    - intros n' Hn'. rewrite Hlk. by bd_simpl. }
  rewrite Get_first, Exists_first, Hfirst. split; reflexivity.
Qed.

Lemma Put_replicates_through_merge_witness :
  Get 50 "k" (MergeRemoteState_fn fresh1 (Put "node2" "k" [x76] 0 (ts 3) fresh2)) =
    inl (put_entry "k" [x76] (ts 3) None) /\
  Exists 50 "k" (MergeRemoteState_fn fresh1 (Put "node2" "k" [x76] 0 (ts 3) fresh2)) = true.
Proof.
  apply (Put_replicates_through_merge fresh1 fresh2 _ "node2" "k" [x76] 0 (ts 3) 50);
    [apply (bool_decide_unpack _); vm_compute; exact I
    |apply (bool_decide_unpack _); vm_compute; exact I
    |simpl; by left|reflexivity|reflexivity|lia|apply Permutation_refl].
Defined.

Lemma put_delete_first (me key : string) (value : list byte)
    (expiration : Z) (t1 t2 : Timestamp) (l : FSM) :
  NoDup (map NodeId l) -> In me (map NodeId l) -> first_entry l key = None ->
  first_entry (Delete me key t2 (Put me key value expiration t1 l)) key =
    Some (archive t2 (put_entry key value t1 (setExpiry expiration))).
Proof.
  intros Hnd Hme Hf.
  set (l1 := Put me key value expiration t1 l).
  assert (Hnd1 : NoDup (map NodeId l1)) by (unfold l1; by rewrite Put_ids).
  assert (Hnd2 : NoDup (map NodeId (Delete me key t2 l1))) by by rewrite Delete_ids.
  apply (first_entry_unique_holder _ me); [done| |].
  - apply Delete_hit. unfold l1. rewrite Put_fresh_lookup by done. by bd_simpl.
  - intros n' Hn'. rewrite Delete_other by tauto. unfold l1.
    rewrite Put_fresh_lookup by done. by bd_simpl.
Qed.

Lemma first_entry_In (l : FSM) (key : string) (e : Entry) :
  first_entry l key = Some e -> exists ns, In ns l /\ Entries ns !! key = Some e.
Proof.
  induction l as [|ns rest IH]; [done|]. rewrite first_entry_cons.
  destruct (Entries ns !! key) as [e0|] eqn:Hk.
  - intros [= <-]. exists ns. split; [by left|done].
  - intros H. destruct (IH H) as (ns' & ? & ?). exists ns'. split; [by right|done].
Qed.

(** Put of a fresh key followed by Delete on the same node leaves a
    tombstone: Exists is false, and Get returns the archived entry
    (unless expired). *)
Theorem Put_then_Delete_tombstone (me key : string) (value : list byte)
    (expiration : Z) (t1 t2 : Timestamp) (now' : Z) (l : FSM) :
  NoDup (map NodeId l) -> In me (map NodeId l) -> first_entry l key = None ->
  let a := archive t2 (put_entry key value t1 (setExpiry expiration)) in
  Exists now' key (Delete me key t2 (Put me key value expiration t1 l)) = false /\
  Get now' key (Delete me key t2 (Put me key value expiration t1 l)) =
    (if expired now' a then inr ErrKeyNotFound else inl a).
Proof.
  intros Hnd Hme Hf a.
  rewrite Exists_first, Get_first, put_delete_first by done. split; [|done].
  unfold isVisible. reflexivity.
Qed.

Lemma Put_then_Delete_tombstone_witness :
  let a := archive (ts 4) (put_entry "k" [] (ts 3) (setExpiry 0)) in
  Exists 5 "k" (Delete "node1" "k" (ts 4) (Put "node1" "k" [] 0 (ts 3) fresh1)) = false /\
  Get 5 "k" (Delete "node1" "k" (ts 4) (Put "node1" "k" [] 0 (ts 3) fresh1)) =
    (if expired 5 a then inr ErrKeyNotFound else inl a).
Proof.
  apply (Put_then_Delete_tombstone "node1" "k" [] 0 (ts 3) (ts 4) 5 fresh1);
    [apply (bool_decide_unpack _); vm_compute; exact I|simpl; by left|reflexivity].
Defined.

(** setExpiry: a zero or negative expiration means no expiry; a positive
    one is stored as a normalised duration of exactly that length. *)
Theorem setExpiry_round_trip (expiration : Z) :
  ((expiration <= 0)%Z -> setExpiry expiration = None) /\
  ((0 < expiration)%Z -> exists d, setExpiry expiration = Some d /\
     (dur_seconds d * 1000000000 + dur_nanos d = expiration)%Z /\
     (0 <= dur_nanos d < 1000000000)%Z).
Proof.
  unfold setExpiry. split.
  - intros Hle. destruct (0 <? expiration)%Z eqn:H; [apply Z.ltb_lt in H; lia|done].
  - intros Hlt. apply Z.ltb_lt in Hlt as Hb. rewrite Hb. eexists. split; [reflexivity|].
    unfold durationpb_New. simpl.
    pose proof (Z.quot_rem' expiration 1000000000) as Hqr.
    pose proof (Z.rem_bound_pos expiration 1000000000) as Hb'.
    split; [lia|]. apply Hb'; lia.
Qed.

Lemma reachable_me_in (d : Delegate) :
  reachable d -> In (me d) (map NodeId (fsm d)).
Proof.
  induction 1 as [name meta|d d' _ IH Hstep].
  - simpl. by left.
  - destruct Hstep as [d key value expiration now|d key now|d remoteFSM result Hm];
      simpl.
    + by rewrite Put_ids.
    + by rewrite Delete_ids.
    + apply (merge_ids _ _ _ _ Hm). by left.
Qed.

(** Invariant: a Delegate built by newDelegate and then any sequence of
    Put, Delete and MergeRemoteState always keeps a partition for its
    own node id [me]. *)
Theorem reachable_keeps_own_partition (d : Delegate) :
  reachable d -> is_Some (partition_of (fsm d) (me d)).
Proof. intros Hr. apply in_ids_partition. by apply reachable_me_in. Qed.

Lemma reachable_keeps_own_partition_witness :
  is_Some (partition_of (fsm (with_fsm (newDelegate "node1" meta1)
    (MergeRemoteState_fn fresh1 run_remote))) "node1").
Proof.
  apply (reachable_keeps_own_partition
           (with_fsm (newDelegate "node1" meta1) (MergeRemoteState_fn fresh1 run_remote))).
  eapply reachable_step; [apply reachable_init|apply (step_merge _ run_remote)].
  apply Permutation_refl.
Defined.

(** On any reachable Delegate, a Put is read back by Get on that node
    (unless the new entry is already expired), whatever happened before. *)
Theorem reachable_Put_then_Get (d : Delegate) (key : string) (value : list byte)
    (expiration : Z) (now : Timestamp) (now' : Z) :
  reachable d ->
  let e := put_entry key value now (setExpiry expiration) in
  Get now' key (Put (me d) key value expiration now (fsm d)) =
    (if expired now' e then inr ErrKeyNotFound else inl e).
Proof.
  intros Hr e. rewrite Get_first, Put_first by by apply reachable_me_in. done.
Qed.

Lemma reachable_Put_then_Get_witness :
  let d := with_fsm (newDelegate "node1" meta1)
             (Delete "node1" "k" (ts 1) (fsm (newDelegate "node1" meta1))) in
  let e := put_entry "k" [x76] (ts 2) (setExpiry 0) in
  Get 3 "k" (Put (me d) "k" [x76] 0 (ts 2) (fsm d)) =
    (if expired 3 e then inr ErrKeyNotFound else inl e).
Proof.
  apply (reachable_Put_then_Get
           (with_fsm (newDelegate "node1" meta1)
              (Delete "node1" "k" (ts 1) (fsm (newDelegate "node1" meta1))))).
  apply (reachable_step (newDelegate "node1" meta1)); [apply reachable_init|].
  apply (step_delete (newDelegate "node1" meta1) "k" (ts 1)).
Defined.

(** A new Delegate holds nothing: every Get is KeyNotFound, every Exists
    false and List empty, whatever the node name and metadata. *)
Theorem newDelegate_empty (name : string) (meta : NodeMeta) (now : Z) (key : string) :
  Get now key (fsm (newDelegate name meta)) = inr ErrKeyNotFound /\
  Exists now key (fsm (newDelegate name meta)) = false /\
  Delegate_List now (fsm (newDelegate name meta)) = [].
Proof.
  unfold newDelegate, Delegate_List. simpl. rewrite lookup_empty, map_to_list_empty.
  repeat split.
Qed.

(** List returns every non-expired entry of every partition, and nothing
    else. *)
Theorem List_In (now : Z) (l : FSM) (e : Entry) :
  In e (Delegate_List now l) <->
  exists ns k, In ns l /\ Entries ns !! k = Some e /\ expired now e = false.
Proof. apply list_in_iff. Qed.

(** List does not filter archived entries: after Put of a fresh key and
    Delete on the same node, the tombstone is listed while it is not
    expired, although Exists reports the key absent. *)
Theorem List_shows_tombstone (me key : string) (value : list byte)
    (expiration : Z) (t1 t2 : Timestamp) (now' : Z) (l : FSM) :
  NoDup (map NodeId l) -> In me (map NodeId l) -> first_entry l key = None ->
  let a := archive t2 (put_entry key value t1 (setExpiry expiration)) in
  expired now' a = false ->
  In a (Delegate_List now' (Delete me key t2 (Put me key value expiration t1 l))) /\
  GetArchived a = true.
Proof.
  intros Hnd Hme Hf a Hx. split; [|done].
  apply list_in_iff.
  destruct (first_entry_In _ _ _ (put_delete_first me key value expiration t1 t2 l Hnd Hme Hf))
    as (ns & Hns & Hk).
  by exists ns, key.
Qed.

Lemma List_shows_tombstone_witness :
  In (archive (ts 4) (put_entry "k" [] (ts 3) (setExpiry 0)))
     (Delegate_List 10 (Delete "node1" "k" (ts 4) (Put "node1" "k" [] 0 (ts 3) fresh1))) /\
  GetArchived (archive (ts 4) (put_entry "k" [] (ts 3) (setExpiry 0))) = true.
Proof.
  apply (List_shows_tombstone "node1" "k" [] 0 (ts 3) (ts 4) 10 fresh1);
    [apply (bool_decide_unpack _); vm_compute; exact I|simpl; by left|reflexivity
    |reflexivity].
Defined.

(** NodeMeta with a node name that is not valid UTF-8 returns only the
    name field: marshalling stops there and host, ports and creation time
    are dropped, the error being ignored. *)
Theorem NodeMeta_invalid_name_cut (d : Delegate) (limit : Z) :
  Name (nodeMeta d) <> ""%string ->
  utf8_valid (string_bytes (Name (nodeMeta d))) = false ->
  Delegate_NodeMeta d limit = field_bytes 10 (string_bytes (Name (nodeMeta d))).
Proof.
  intros Hne Hbad. unfold Delegate_NodeMeta, proto_Marshal_NodeMeta, field_string.
  rewrite bool_decide_false by done. rewrite Hbad. reflexivity.
Qed.

Lemma NodeMeta_invalid_name_cut_witness :
  Delegate_NodeMeta (newDelegate "n" bad_meta) 512 = field_bytes 10 (string_bytes bad_name).
Proof.
  apply (NodeMeta_invalid_name_cut (newDelegate "n" bad_meta) 512);
    [simpl; discriminate|vm_compute; reflexivity].
Defined.

(** With a valid name and a host that is not valid UTF-8, NodeMeta
    returns the name and host fields only: port, discovery port and
    creation time are dropped. *)
Theorem NodeMeta_invalid_host_cut (d : Delegate) (limit : Z) :
  utf8_valid (string_bytes (Name (nodeMeta d))) = true ->
  Host (nodeMeta d) <> ""%string ->
  utf8_valid (string_bytes (Host (nodeMeta d))) = false ->
  Delegate_NodeMeta d limit =
    fst (field_string 10 (Name (nodeMeta d))) ++
    field_bytes 18 (string_bytes (Host (nodeMeta d))).
Proof.
  intros Hname Hne Hbad. unfold Delegate_NodeMeta, proto_Marshal_NodeMeta.
  assert (Hn : snd (field_string 10 (Name (nodeMeta d))) = true).
  { unfold field_string. by case_bool_decide. }
  destruct (field_string 10 (Name (nodeMeta d))) as [b1 ok1]. simpl in Hn |- *. subst ok1.
  unfold field_string at 1. rewrite bool_decide_false by done. rewrite Hbad. reflexivity.
Qed.

Lemma NodeMeta_invalid_host_cut_witness :
  Delegate_NodeMeta (newDelegate "node1" bad_host_meta) 512 =
    fst (field_string 10 "node1") ++ field_bytes 18 (string_bytes bad_name).
Proof.
  apply (NodeMeta_invalid_host_cut (newDelegate "node1" bad_host_meta) 512);
    [vm_compute; reflexivity|simpl; discriminate|vm_compute; reflexivity].
Defined.

(** Whatever the limit, the bytes NodeMeta returns for a non-empty name
    begin with the whole name field, so they are never cut to the limit. *)
Theorem NodeMeta_starts_with_name (d : Delegate) (limit : Z) :
  Name (nodeMeta d) <> ""%string ->
  exists rest, Delegate_NodeMeta d limit =
    field_bytes 10 (string_bytes (Name (nodeMeta d))) ++ rest.
Proof.
  intros Hne. unfold Delegate_NodeMeta, proto_Marshal_NodeMeta.
  unfold field_string at 1. rewrite bool_decide_false by done.
  destruct (utf8_valid _); simpl; [|exists []; by rewrite app_nil_r].
  destruct (field_string 18 (Host (nodeMeta d))) as [b2 []]; simpl; eexists; reflexivity.
Qed.

Lemma NodeMeta_starts_with_name_witness :
  exists rest, Delegate_NodeMeta (newDelegate "node1" meta1) 0 =
    field_bytes 10 (string_bytes "node1") ++ rest.
Proof. apply (NodeMeta_starts_with_name (newDelegate "node1" meta1) 0). simpl. discriminate. Defined.
